(** * Analytics engine consumer (src/analytics-engine/consumer.py)

    Shallow embedding of the projection loop: the Kafka consumer hands
    JSON values to the loop, which opens a Neo4j session per message and
    runs [update_graph] in a managed write transaction.  The graph store is
    modelled as node lists with identities drawn from a counter and a list
    of POSTED_IN relationships (a multiset: duplicates are duplicate edges). *)

From Stdlib Require Import List String Bool Arith ZArith Lia Permutation.
Import ListNotations.
Open Scope list_scope.
Set Warnings "-register-all".

(** ** JSON values, as produced by [json.loads] *)

Inductive json : Type :=
| JNull
| JBool (b : bool)
| JNum (z : Z)
| JStr (s : string)
| JArr (l : list json)
| JObj (d : list (string * json)).

(** Nested induction principle for [json]. *)
Definition json_rect' (P : json -> Prop)
  (HNull : P JNull) (HBool : forall b, P (JBool b)) (HNum : forall z, P (JNum z))
  (HStr : forall s, P (JStr s))
  (HArr : forall l, Forall P l -> P (JArr l))
  (HObj : forall d, Forall (fun kv => P (snd kv)) d -> P (JObj d)) :
  forall j, P j :=
  fix F j :=
    match j return P j with
    | JNull => HNull
    | JBool b => HBool b
    | JNum z => HNum z
    | JStr s => HStr s
    | JArr l =>
        HArr l ((fix G (l : list json) : Forall P l :=
                   match l with
                   | [] => Forall_nil _
                   | x :: r => Forall_cons _ (F x) (G r)
                   end) l)
    | JObj d =>
        HObj d ((fix G (d : list (string * json)) : Forall (fun kv => P (snd kv)) d :=
                   match d with
                   | [] => Forall_nil _
                   | kv :: r => Forall_cons _ (F (snd kv)) (G r)
                   end) d)
    end.

(** Value equality, as Cypher compares property values. *)
Fixpoint json_eqb (x y : json) {struct x} : bool :=
  match x, y with
  | JNull, JNull => true
  | JBool a, JBool b => Bool.eqb a b
  | JNum a, JNum b => Z.eqb a b
  | JStr a, JStr b => String.eqb a b
  | JArr l1, JArr l2 =>
      (fix go (l1 l2 : list json) : bool :=
         match l1, l2 with
         | [], [] => true
         | a :: r1, b :: r2 => json_eqb a b && go r1 r2
         | _, _ => false
         end) l1 l2
  | JObj d1, JObj d2 =>
      (fix go (d1 d2 : list (string * json)) : bool :=
         match d1, d2 with
         | [], [] => true
         | (k1, a) :: r1, (k2, b) :: r2 => String.eqb k1 k2 && json_eqb a b && go r1 r2
         | _, _ => false
         end) d1 d2
  | _, _ => false
  end.

(** A Python [dict] built by [json.loads]: on duplicate keys the last wins. *)
Definition dict_get (d : list (string * json)) (k : string) : option json :=
  fold_left (fun acc kv => if String.eqb k (fst kv) then Some (snd kv) else acc) d None.

(** ** The graph store *)

Record graph : Type := mkGraph {
  next_id : nat;
  users : list (nat * json);     (* (:User {name}) nodes *)
  cats : list (nat * json);      (* (:Category {name}) nodes *)
  rels : list (nat * nat)        (* (u)-[:POSTED_IN]->(c) relationships *)
}.

Definition empty_graph : graph := mkGraph 0 [] [] [].

Definition ids_named (ns : list (nat * json)) (v : json) : list nat :=
  map fst (filter (fun p => json_eqb (snd p) v) ns).

(** [MERGE (n:Label {name: v})]: bind every matching node, or create one. *)
Definition merge_node (ns : list (nat * json)) (v : json) (next : nat)
  : list nat * list (nat * json) * nat :=
  match ids_named ns v with
  | [] => ([next], (next, v) :: ns, S next)
  | ids => (ids, ns, next)
  end.

(** [MERGE (c:Category {name: $category})], once per incoming row [u]. *)
Fixpoint merge_cat_rows (us : list nat) (cs : list (nat * json)) (c : json) (next : nat)
  : list (nat * nat) * list (nat * json) * nat :=
  match us with
  | [] => ([], cs, next)
  | u :: us' =>
      let '(cids, cs1, n1) := merge_node cs c next in
      let '(rows, cs2, n2) := merge_cat_rows us' cs1 c n1 in
      (map (pair u) cids ++ rows, cs2, n2)
  end.

Definition pair_eqb (p q : nat * nat) : bool :=
  Nat.eqb (fst p) (fst q) && Nat.eqb (snd p) (snd q).

(** [MERGE (u)-[:POSTED_IN]->(c)], once per row [(u, c)]. *)
Definition merge_rel (rs : list (nat * nat)) (row : nat * nat) : list (nat * nat) :=
  if existsb (pair_eqb row) rs then rs else row :: rs.

(** The query of [update_graph]:
    [MERGE (u:User {name: $user}) MERGE (c:Category {name: $category})
     MERGE (u)-[:POSTED_IN]->(c)]. *)
Definition update_graph (g : graph) (user category : json) : graph :=
  let '(us, users', n1) := merge_node (users g) user (next_id g) in
  let '(rows, cats', n2) := merge_cat_rows us (cats g) category n1 in
  mkGraph n2 users' cats' (fold_left merge_rel rows (rels g)).

Definition count_users (g : graph) (v : json) : nat := List.length (ids_named (users g) v).
Definition count_cats (g : graph) (v : json) : nat := List.length (ids_named (cats g) v).

(** Number of POSTED_IN relationships from a User named [u] to a Category named [c]. *)
Definition count_rel (g : graph) (u c : json) : nat :=
  List.length (filter (fun r => existsb (Nat.eqb (fst r)) (ids_named (users g) u)
                           && existsb (Nat.eqb (snd r)) (ids_named (cats g) c))
                 (rels g)).

(** Node identities come from the counter: every id in use is below it. *)
Definition wf (g : graph) : Prop :=
  Forall (fun p => fst p < next_id g) (users g) /\
  Forall (fun p => fst p < next_id g) (cats g) /\
  Forall (fun r => fst r < next_id g /\ snd r < next_id g) (rels g).

Fixpoint apply_n (n : nat) (g : graph) (u c : json) : graph :=
  match n with
  | 0 => g
  | S n' => apply_n n' (update_graph g u c) u c
  end.

Example update_graph_twice :
  apply_n 2 empty_graph (JStr "alice") (JStr "electronics")
  = mkGraph 2 [(0, JStr "alice")] [(1, JStr "electronics")] [(0, 1)].
Proof. reflexivity. Qed.

(** ** Property values accepted by the store

    A node property is a non-null scalar or a homogeneous list of them;
    [MERGE] on a null or map-valued [name] is rejected by the store.
    Integers outside int64 never get this far: the driver refuses to pack
    them ([packable] below). *)
Definition scalar_kind (j : json) : option nat :=
  match j with
  | JBool _ => Some 0
  | JNum _ => Some 1
  | JStr _ => Some 2
  | _ => None
  end.

Definition prop_ok (j : json) : bool :=
  match j with
  | JBool _ | JNum _ | JStr _ => true
  | JArr [] => true
  | JArr (x :: l) =>
      match scalar_kind x with
      | Some k => forallb (fun y => match scalar_kind y with
                                    | Some k' => Nat.eqb k k'
                                    | None => false
                                    end) l
      | None => false
      end
  | JNull | JObj _ => false
  end.

(** ** Parameters the driver can send

    [tx.run] packs its parameters before anything reaches the store; the
    packer writes integers as signed 64-bit values and raises [OverflowError]
    on any other integer, at any depth of a list or a map value.  Null, map
    and heterogeneous list values pack fine and are rejected by the store
    later ([prop_ok]). *)
Definition int64_range (z : Z) : bool :=
  (- 2 ^ 63 <=? z)%Z && (z <? 2 ^ 63)%Z.

Fixpoint packable (j : json) : bool :=
  match j with
  | JNum z => int64_range z
  | JArr l => (fix go (l : list json) : bool :=
                 match l with [] => true | x :: l' => packable x && go l' end) l
  | JObj d => (fix go (d : list (string * json)) : bool :=
                 match d with [] => true | (_, v) :: d' => packable v && go d' end) d
  | JNull | JBool _ | JStr _ => true
  end.

(** ** Exceptions, console output and driver events *)

Inductive exn : Type :=
| KeyError (k : string)          (* data['user'] on a dict without the key *)
| TypeError                      (* data['user'] on a non-dict JSON value *)
| JSONDecodeError                (* raised by the consumer's value_deserializer *)
| ServiceUnavailable             (* the store cannot be reached *)
| CommitFailed                   (* the commit of the transaction failed *)
| ClientError                    (* the store rejects the query's parameters *)
| OverflowError                  (* the packer meets an integer outside int64 *)
| IncompleteCommit.              (* the connection dropped during COMMIT *)

Inductive event : Type :=
| Received (data : json)         (* print(f"Received Event: {data}") *)
| GraphUpdated (u c : json)      (* print(f"Graph Updated: {user} -> {category}") *)
| Neo4jError (e : exn)           (* print(f"Neo4j Error: {e}") *)
| SessionOpened
| SessionClosed
| TxBegun
| TxCommitted
| TxRolledBack
| TxCommitUnknown.               (* COMMIT sent, its outcome never received *)

(** What the store does with one transaction attempt; [retryable] tells
    whether the driver classifies the failure as retryable (and is still
    within its retry time).  [CommitUnknown applied]: the connection drops
    after COMMIT was sent; [applied] tells whether the store committed. *)
Inductive attempt : Type :=
| Reachable
| Unreachable (retryable : bool)
| CommitLost (retryable : bool)
| CommitUnknown (applied : bool).

(** [session.write_transaction(update_graph, user, category)]: the driver's
    managed write transaction.  Each attempt begins a transaction (which
    fails when the store is unreachable) and calls the transaction function
    [update_graph]: its [tx.run] first packs the parameters, raising
    [OverflowError] (not retried) on an integer outside int64; otherwise
    [tx.run] returns and the function prints its success line; then the
    driver commits.  A retryable failure re-runs the function in a fresh
    transaction; any other failure is raised to the caller.  A connection
    lost during COMMIT raises [IncompleteCommit], which is never retried,
    whether or not the store applied the commit.  The store's answers to
    successive attempts are read from [o]; once they are exhausted the store
    is unreachable. *)
Fixpoint write_transaction (g : graph) (o : list attempt) (user category : json)
  : graph * list attempt * list event * option exn :=
  match o with
  | [] => (g, [], [TxBegun; TxRolledBack], Some ServiceUnavailable)
  | Unreachable r :: o' =>
      if r then
        let '(g', o'', t, e) := write_transaction g o' user category in
        (g', o'', TxBegun :: TxRolledBack :: t, e)
      else (g, o', [TxBegun; TxRolledBack], Some ServiceUnavailable)
  | CommitLost r :: o' =>
      if packable user && packable category then
        if r then
          let '(g', o'', t, e) := write_transaction g o' user category in
          (g', o'', TxBegun :: GraphUpdated user category :: TxRolledBack :: t, e)
        else (g, o', [TxBegun; GraphUpdated user category; TxRolledBack], Some CommitFailed)
      else (g, o', [TxBegun; TxRolledBack], Some OverflowError)
  | CommitUnknown applied :: o' =>
      if packable user && packable category then
        (if applied && prop_ok user && prop_ok category
         then update_graph g user category else g, o',
         [TxBegun; GraphUpdated user category; TxCommitUnknown], Some IncompleteCommit)
      else (g, o', [TxBegun; TxRolledBack], Some OverflowError)
  | Reachable :: o' =>
      if packable user && packable category then
        if prop_ok user && prop_ok category then
          (update_graph g user category, o',
           [TxBegun; GraphUpdated user category; TxCommitted], None)
        else (g, o', [TxBegun; GraphUpdated user category; TxRolledBack], Some ClientError)
      else (g, o', [TxBegun; TxRolledBack], Some OverflowError)
  end.

(** [data[k]] on the decoded value. *)
Definition subscript (data : json) (k : string) : json + exn :=
  match data with
  | JObj d => match dict_get d k with
              | Some v => inl v
              | None => inr (KeyError k)
              end
  | _ => inr TypeError
  end.

(** The body of the loop after the echo line:
<<
    try:
        with driver.session() as session:
            session.write_transaction(update_graph, data['user'], data['category'])
    except Exception as e:
        print(f"Neo4j Error: {e}")
>>
    The [with] block closes the session before the handler prints. *)
Definition handle (g : graph) (o : list attempt) (data : json)
  : graph * list attempt * list event :=
  match subscript data "user" with
  | inr e => (g, o, [SessionOpened; SessionClosed; Neo4jError e])
  | inl user =>
      match subscript data "category" with
      | inr e => (g, o, [SessionOpened; SessionClosed; Neo4jError e])
      | inl category =>
          let '(g', o', t, r) := write_transaction g o user category in
          (g', o', SessionOpened :: t ++ SessionClosed ::
                     match r with Some e => [Neo4jError e] | None => [] end)
      end
  end.

(** State of the process after the messages delivered so far: still in the
    loop, waiting for the next message, or terminated by an exception that
    escaped the loop. *)
Inductive status : Type :=
| Listening
| Crashed (e : exn).

Section Loop.

(** [value_deserializer=lambda x: json.loads(x.decode('utf-8'))]: [None]
    when the payload is not UTF-8 encoded JSON (the lambda raises). *)
Variable deserialize : list Byte.byte -> option json.

(** [for message in consumer: data = message.value; ...].  The consumer
    deserializes while it yields the message, so a decoding error is raised
    by the iteration itself, outside the [try]. *)
Fixpoint run (g : graph) (o : list attempt) (ms : list (list Byte.byte))
  : graph * list attempt * list event * status :=
  match ms with
  | [] => (g, o, [], Listening)
  | m :: ms' =>
      match deserialize m with
      | None => (g, o, [], Crashed JSONDecodeError)
      | Some data =>
          let '(g1, o1, t1) := handle g o data in
          let '(g2, o2, t2, s) := run g1 o1 ms' in
          (g2, o2, Received data :: t1 ++ t2, s)
      end
  end.

End Loop.

(** ** Lemmas on values and the MERGE query *)

Lemma json_eqb_eq : forall x y, json_eqb x y = true <-> x = y.
Proof.
  induction x as [ | b | z | s | l IH | d IH ] using json_rect';
    intros [ | b' | z' | s' | l' | d' ]; simpl; try (split; congruence).
  - rewrite Bool.eqb_true_iff; split; congruence.
  - rewrite Z.eqb_eq; split; congruence.
  - rewrite String.eqb_eq; split; congruence.
  - revert l'; induction IH as [|x l Hx _ IHl]; intros [|y l']; simpl;
      try (split; congruence).
    rewrite andb_true_iff, Hx, IHl.
    split; [intros [-> H]; congruence | intros H; injection H as -> ->; auto].
  - revert d'; induction IH as [|[k x] d Hx _ IHd]; intros [|[k' y] d']; simpl;
      try (split; congruence).
    simpl in Hx; rewrite !andb_true_iff, String.eqb_eq, Hx, IHd.
    split; [intros [[-> ->] H]; congruence | intros H; injection H as -> -> ->; auto].
Qed.

Lemma json_eqb_refl v : json_eqb v v = true.
Proof. apply json_eqb_eq; reflexivity. Qed.

Lemma pair_eqb_eq p q : pair_eqb p q = true <-> p = q.
Proof.
  destruct p as [x y], q as [x' y']; unfold pair_eqb, fst, snd.
  rewrite andb_true_iff, !Nat.eqb_eq; split; [intros [-> ->]; auto | intros H; injection H as -> ->; auto].
Qed.

Lemma existsb_pair_In p rs : existsb (pair_eqb p) rs = true <-> In p rs.
Proof.
  rewrite existsb_exists; split.
  - intros [q [Hq He]]; apply pair_eqb_eq in He; subst; exact Hq.
  - intros H; exists p; split; [exact H | apply pair_eqb_eq; reflexivity].
Qed.

(** Number of copies of one relationship. *)
Definition rel_copies (rs : list (nat * nat)) (p : nat * nat) : nat :=
  List.length (filter (pair_eqb p) rs).

Lemma count_rel_single g u c a b :
  ids_named (users g) u = [a] -> ids_named (cats g) c = [b] ->
  count_rel g u c = rel_copies (rels g) (a, b).
Proof.
  intros Hu Hc; unfold count_rel, rel_copies; rewrite Hu, Hc; f_equal.
  apply filter_ext; intros [x y]; unfold pair_eqb; simpl.
  rewrite !orb_false_r, (Nat.eqb_sym x a), (Nat.eqb_sym y b); reflexivity.
Qed.

Lemma rel_copies_In rs p : In p rs -> 1 <= rel_copies rs p.
Proof.
  intros H; unfold rel_copies.
  destruct (filter (pair_eqb p) rs) eqn:E; simpl; [|lia].
  assert (Hin : In p (filter (pair_eqb p) rs))
    by (apply filter_In; split; [exact H | apply pair_eqb_eq; reflexivity]).
  rewrite E in Hin; destruct Hin.
Qed.

Lemma merge_rel_once rs p :
  (In p rs -> rel_copies rs p = 1) ->
  In p (merge_rel rs p) /\ rel_copies (merge_rel rs p) p = 1.
Proof.
  intros H; unfold merge_rel.
  destruct (existsb (pair_eqb p) rs) eqn:E.
  - apply existsb_pair_In in E; auto.
  - split; [left; reflexivity|].
    unfold rel_copies; simpl.
    rewrite (proj2 (pair_eqb_eq p p) eq_refl); simpl.
    assert (Hn : filter (pair_eqb p) rs = []).
    { destruct (filter (pair_eqb p) rs) as [|q l] eqn:F; [reflexivity|].
      assert (Hq : In q (filter (pair_eqb p) rs)) by (rewrite F; left; reflexivity).
      apply filter_In in Hq as [Hq Heq]; apply pair_eqb_eq in Heq; subst q.
      apply (proj2 (existsb_pair_In p rs)) in Hq; congruence. }
    rewrite Hn; reflexivity.
Qed.

Lemma merge_rel_incl rs p : incl rs (merge_rel rs p).
Proof. unfold merge_rel; destruct existsb; [apply incl_refl | apply incl_tl, incl_refl]. Qed.

Lemma merge_node_cases ns v next :
  List.length (ids_named ns v) <= 1 ->
  (ids_named ns v = [] /\ merge_node ns v next = ([next], (next, v) :: ns, S next)) \/
  (exists k, ids_named ns v = [k] /\ merge_node ns v next = ([k], ns, next)).
Proof.
  unfold merge_node; destruct (ids_named ns v) as [|k [|k' l]]; simpl; intros H.
  - left; auto.
  - right; exists k; auto.
  - lia.
Qed.

Lemma ids_named_new k v ns :
  ids_named ((k, v) :: ns) v = k :: ids_named ns v.
Proof. unfold ids_named; simpl; rewrite json_eqb_refl; reflexivity. Qed.

Lemma ids_named_other k w v ns :
  w <> v -> ids_named ((k, w) :: ns) v = ids_named ns v.
Proof.
  intros H; unfold ids_named; simpl.
  destruct (json_eqb w v) eqn:E; [apply json_eqb_eq in E; contradiction | reflexivity].
Qed.

Lemma update_graph_single_row g u c a b us' cs' n1 n2 :
  merge_node (users g) u (next_id g) = ([a], us', n1) ->
  merge_node (cats g) c n1 = ([b], cs', n2) ->
  update_graph g u c = mkGraph n2 us' cs' (merge_rel (rels g) (a, b)).
Proof.
  intros Hu Hc; unfold update_graph; rewrite Hu; simpl; rewrite Hc; reflexivity.
Qed.

Lemma merge_node_fresh_or_old ns v next :
  List.length (ids_named ns v) <= 1 ->
  exists k ns' n', merge_node ns v next = ([k], ns', n') /\
    ids_named ns' v = [k] /\ next <= n' /\
    (next <= k \/ ids_named ns v = [k]) /\
    (forall w, w <> v -> ids_named ns' w = ids_named ns w) /\ incl ns ns'.
Proof.
  intros H; destruct (merge_node_cases ns v next H) as [[H0 M] | [k [H1 M]]].
  - exists next, ((next, v) :: ns), (S next); rewrite M.
    repeat split; auto.
    + rewrite ids_named_new, H0; reflexivity.
    + intros w Hw; apply ids_named_other; congruence.
    + apply incl_tl, incl_refl.
  - exists k, ns, next; rewrite M; repeat split; auto using incl_refl.
Qed.

Lemma update_graph_fixed g u c a b :
  ids_named (users g) u = [a] -> ids_named (cats g) c = [b] -> In (a, b) (rels g) ->
  update_graph g u c = g.
Proof.
  intros Hu Hc Hin.
  assert (Mu : merge_node (users g) u (next_id g) = ([a], users g, next_id g))
    by (unfold merge_node; rewrite Hu; reflexivity).
  assert (Mc : merge_node (cats g) c (next_id g) = ([b], cats g, next_id g))
    by (unfold merge_node; rewrite Hc; reflexivity).
  rewrite (update_graph_single_row g u c a b _ _ _ _ Mu Mc).
  unfold merge_rel; rewrite (proj2 (existsb_pair_In _ _) Hin).
  destruct g; reflexivity.
Qed.

Lemma apply_n_fixed n g u c : update_graph g u c = g -> apply_n n g u c = g.
Proof. intros H; induction n as [|n IH]; simpl; [reflexivity | rewrite H; exact IH]. Qed.

(** One application from a graph without duplicates binds a single User, a
    single Category and a single relationship between them. *)
Lemma update_graph_first g u c :
  wf g -> count_users g u <= 1 -> count_cats g c <= 1 -> count_rel g u c <= 1 ->
  exists a b,
    ids_named (users (update_graph g u c)) u = [a] /\
    ids_named (cats (update_graph g u c)) c = [b] /\
    In (a, b) (rels (update_graph g u c)) /\
    rel_copies (rels (update_graph g u c)) (a, b) = 1.
Proof.
  intros [Wu [Wc Wr]] Hu Hc Hr.
  destruct (merge_node_fresh_or_old (users g) u (next_id g) Hu)
    as (a & us' & n1 & Mu & Iu & Hn1 & Ha & _).
  destruct (merge_node_fresh_or_old (cats g) c n1 Hc)
    as (b & cs' & n2 & Mc & Ic & Hn2 & Hb & _).
  rewrite (update_graph_single_row g u c a b us' cs' n1 n2 Mu Mc); simpl.
  exists a, b; split; [exact Iu|]; split; [exact Ic|].
  apply merge_rel_once; intros Hin.
  rewrite Forall_forall in Wr; pose proof (Wr _ Hin) as [Wa Wb]; simpl in Wa, Wb.
  destruct Ha as [Ha | Ha]; [lia|].
  destruct Hb as [Hb | Hb]; [lia|].
  rewrite (count_rel_single g u c a b Ha Hb) in Hr.
  pose proof (rel_copies_In _ _ Hin); lia.
Qed.

Lemma merge_rel_In rs p : In p (merge_rel rs p).
Proof.
  unfold merge_rel; destruct (existsb (pair_eqb p) rs) eqn:E;
    [apply existsb_pair_In; exact E | left; reflexivity].
Qed.

Lemma ids_named_incl ns ns' v : incl ns ns' -> incl (ids_named ns v) (ids_named ns' v).
Proof.
  intros H k Hk; unfold ids_named in *; apply in_map_iff in Hk as [[k' w] [<- Hin]].
  apply filter_In in Hin as [Hin Hw].
  apply in_map_iff; exists (k', w); split; [reflexivity|].
  apply filter_In; split; [apply H; exact Hin | exact Hw].
Qed.

Lemma count_rel_pos g u c x y :
  In (x, y) (rels g) -> In x (ids_named (users g) u) -> In y (ids_named (cats g) c) ->
  1 <= count_rel g u c.
Proof.
  intros Hr Hx Hy; unfold count_rel.
  assert (Hin : In (x, y) (filter (fun r => existsb (Nat.eqb (fst r)) (ids_named (users g) u)
                           && existsb (Nat.eqb (snd r)) (ids_named (cats g) c)) (rels g))).
  { apply filter_In; split; [exact Hr|]; simpl.
    apply andb_true_iff; split; apply existsb_exists;
      [exists x | exists y]; rewrite Nat.eqb_refl; auto. }
  destruct (filter _ (rels g)); [destruct Hin | simpl; lia].
Qed.

(** One application binds a User named [u] and a Category named [c], links
    them, keeps every node and relationship, and leaves the Categories of
    other names as they were. *)
Lemma update_graph_binds g u c :
  count_users g u <= 1 -> count_cats g c <= 1 ->
  exists a b,
    ids_named (users (update_graph g u c)) u = [a] /\
    ids_named (cats (update_graph g u c)) c = [b] /\
    In (a, b) (rels (update_graph g u c)) /\
    (forall w, w <> c -> ids_named (cats (update_graph g u c)) w = ids_named (cats g) w) /\
    incl (users g) (users (update_graph g u c)) /\
    incl (cats g) (cats (update_graph g u c)) /\
    incl (rels g) (rels (update_graph g u c)).
Proof.
  intros Hu Hc.
  destruct (merge_node_fresh_or_old (users g) u (next_id g) Hu)
    as (a & us' & n1 & Mu & Iu & _ & _ & _ & Su).
  destruct (merge_node_fresh_or_old (cats g) c n1 Hc)
    as (b & cs' & n2 & Mc & Ic & _ & _ & Oc & Sc).
  rewrite (update_graph_single_row g u c a b us' cs' n1 n2 Mu Mc); simpl.
  exists a, b; repeat split; auto using merge_rel_In, merge_rel_incl.
Qed.

(** ** Properties of the projection *)

(** C1: applying the same (user, category) event N >= 1 times, from a graph
    whose ids come from its counter and that has at most one User named [u],
    at most one Category named [c] and at most one POSTED_IN relationship
    between them (the empty graph, for one), gives the same graph as one
    application, with exactly one User [u], one Category [c] and one
    POSTED_IN relationship from the one to the other. *)
Theorem update_graph_idempotent (g : graph) (u c : json) (n : nat) :
  wf g -> count_users g u <= 1 -> count_cats g c <= 1 -> count_rel g u c <= 1 ->
  1 <= n ->
  apply_n n g u c = update_graph g u c /\
  count_users (apply_n n g u c) u = 1 /\
  count_cats (apply_n n g u c) c = 1 /\
  count_rel (apply_n n g u c) u c = 1.
Proof.
  intros W Hu Hc Hr Hn.
  destruct (update_graph_first g u c W Hu Hc Hr) as (a & b & Iu & Ic & Hin & Hcp).
  assert (E : apply_n n g u c = update_graph g u c).
  { destruct n as [|n]; [lia|]; simpl.
    apply apply_n_fixed, (update_graph_fixed _ u c a b Iu Ic Hin). }
  rewrite E; unfold count_users, count_cats; rewrite Iu, Ic.
  rewrite (count_rel_single _ u c a b Iu Ic), Hcp; auto.
Qed.

Lemma update_graph_idempotent_witness :
  (wf empty_graph /\ count_users empty_graph (JStr "alice") <= 1 /\
   count_cats empty_graph (JStr "electronics") <= 1 /\
   count_rel empty_graph (JStr "alice") (JStr "electronics") <= 1 /\ 1 <= 3) /\
  apply_n 3 empty_graph (JStr "alice") (JStr "electronics")
    = update_graph empty_graph (JStr "alice") (JStr "electronics") /\
  count_users (apply_n 3 empty_graph (JStr "alice") (JStr "electronics")) (JStr "alice") = 1 /\
  count_cats (apply_n 3 empty_graph (JStr "alice") (JStr "electronics")) (JStr "electronics") = 1 /\
  count_rel (apply_n 3 empty_graph (JStr "alice") (JStr "electronics"))
    (JStr "alice") (JStr "electronics") = 1.
Proof.
  split.
  - split; [split; [apply Forall_nil | split; apply Forall_nil] |]; repeat split; vm_compute; lia.
  - apply update_graph_idempotent;
      [split; [apply Forall_nil | split; apply Forall_nil] | vm_compute; lia | vm_compute; lia | vm_compute; lia | lia].
Defined.

(** C5: from the empty graph, events (u1, c1) then (u2, c2) with u1 <> u2
    and c1 <> c2 give two User nodes, two Category nodes and exactly the two
    relationships u1 -> c1 and u2 -> c2; none links u1 to c2 or u2 to c1. *)
Theorem update_graph_isolation (u1 c1 u2 c2 : json) :
  u1 <> u2 -> c1 <> c2 ->
  let g := update_graph (update_graph empty_graph u1 c1) u2 c2 in
  g = mkGraph 4 [(2, u2); (0, u1)] [(3, c2); (1, c1)] [(2, 3); (0, 1)] /\
  count_users g u1 = 1 /\ count_users g u2 = 1 /\
  count_cats g c1 = 1 /\ count_cats g c2 = 1 /\
  count_rel g u1 c1 = 1 /\ count_rel g u2 c2 = 1 /\
  count_rel g u1 c2 = 0 /\ count_rel g u2 c1 = 0.
Proof.
  intros Hu Hc g.
  assert (E1 : json_eqb u1 u2 = false)
    by (destruct (json_eqb u1 u2) eqn:E; [apply json_eqb_eq in E; contradiction | reflexivity]).
  assert (E2 : json_eqb c1 c2 = false)
    by (destruct (json_eqb c1 c2) eqn:E; [apply json_eqb_eq in E; contradiction | reflexivity]).
  assert (E3 : json_eqb u2 u1 = false)
    by (destruct (json_eqb u2 u1) eqn:E; [apply json_eqb_eq in E; subst; contradiction | reflexivity]).
  assert (E4 : json_eqb c2 c1 = false)
    by (destruct (json_eqb c2 c1) eqn:E; [apply json_eqb_eq in E; subst; contradiction | reflexivity]).
  assert (G : g = mkGraph 4 [(2, u2); (0, u1)] [(3, c2); (1, c1)] [(2, 3); (0, 1)]).
  { unfold g, update_graph, merge_node, ids_named; simpl; rewrite E1; simpl; unfold merge_node, ids_named; simpl; rewrite E2; reflexivity. }
  rewrite G; unfold count_users, count_cats, count_rel, ids_named; simpl.
  rewrite !json_eqb_refl, E1, E2, E3, E4; simpl; repeat split.
Qed.

Lemma update_graph_isolation_witness :
  (JStr "alice" <> JStr "bob" /\ JStr "books" <> JStr "bikes") /\
  update_graph (update_graph empty_graph (JStr "alice") (JStr "books")) (JStr "bob") (JStr "bikes")
  = mkGraph 4 [(2, JStr "bob"); (0, JStr "alice")] [(3, JStr "bikes"); (1, JStr "books")]
      [(2, 3); (0, 1)].
Proof.
  assert (H1 : JStr "alice" <> JStr "bob") by discriminate.
  assert (H2 : JStr "books" <> JStr "bikes") by discriminate.
  split; [split; assumption|].
  exact (proj1 (update_graph_isolation _ _ _ _ H1 H2)).
Defined.

(** C6: events (u, c1) then (u, c2) with c1 <> c2, from a graph with at
    most one User [u] and at most one Category of each name: afterwards one
    User [u], one Category [c1], one Category [c2], relationships u -> c1
    and u -> c2, and the second write kept every node and relationship of
    the first. *)
Theorem update_graph_same_user (g : graph) (u c1 c2 : json) :
  count_users g u <= 1 -> count_cats g c1 <= 1 -> count_cats g c2 <= 1 -> c1 <> c2 ->
  let g1 := update_graph g u c1 in
  let g2 := update_graph g1 u c2 in
  count_users g2 u = 1 /\ count_cats g2 c1 = 1 /\ count_cats g2 c2 = 1 /\
  1 <= count_rel g2 u c1 /\ 1 <= count_rel g2 u c2 /\
  incl (users g1) (users g2) /\ incl (cats g1) (cats g2) /\ incl (rels g1) (rels g2).
Proof.
  intros Hu Hc1 Hc2 Hne g1 g2.
  destruct (update_graph_binds g u c1 Hu Hc1)
    as (a & b1 & Iu1 & Ic1 & Hr1 & Oc1 & _ & _ & _).
  fold g1 in Iu1, Ic1, Hr1, Oc1.
  assert (Hu1 : count_users g1 u <= 1) by (unfold count_users; rewrite Iu1; simpl; lia).
  assert (Hc21 : count_cats g1 c2 <= 1)
    by (unfold count_cats; rewrite Oc1 by congruence; exact Hc2).
  destruct (update_graph_binds g1 u c2 Hu1 Hc21)
    as (a' & b2 & Iu2 & Ic2 & Hr2 & Oc2 & Su & Sc & Sr).
  fold g2 in Iu2, Ic2, Hr2, Oc2, Su, Sc, Sr.
  assert (Ic12 : ids_named (cats g2) c1 = [b1]) by (rewrite Oc2 by congruence; exact Ic1).
  unfold count_users, count_cats; rewrite Iu2, Ic12, Ic2.
  repeat split; auto.
  - apply (count_rel_pos g2 u c1 a b1); [apply Sr; exact Hr1 | | rewrite Ic12; left; reflexivity].
    apply (ids_named_incl _ _ u Su); rewrite Iu1; left; reflexivity.
  - apply (count_rel_pos g2 u c2 a' b2); [exact Hr2 | rewrite Iu2 | rewrite Ic2]; left; reflexivity.
Qed.

Lemma update_graph_same_user_witness :
  (count_users empty_graph (JStr "alice") <= 1 /\ count_cats empty_graph (JStr "books") <= 1 /\
   count_cats empty_graph (JStr "bikes") <= 1 /\ JStr "books" <> JStr "bikes") /\
  1 <= count_rel (update_graph (update_graph empty_graph (JStr "alice") (JStr "books"))
                    (JStr "alice") (JStr "bikes")) (JStr "alice") (JStr "books").
Proof.
  assert (H1 : count_users empty_graph (JStr "alice") <= 1) by (vm_compute; lia).
  assert (H2 : count_cats empty_graph (JStr "books") <= 1) by (vm_compute; lia).
  assert (H3 : count_cats empty_graph (JStr "bikes") <= 1) by (vm_compute; lia).
  assert (H4 : JStr "books" <> JStr "bikes") by discriminate.
  split; [repeat split; assumption|].
  exact (proj1 (proj2 (proj2 (proj2 (update_graph_same_user _ _ _ _ H1 H2 H3 H4))))).
Defined.

(** ** Lemmas on the loop *)

Definition count_ev (p : event -> bool) (t : list event) : nat := List.length (filter p t).

Definition is_tx_begun (e : event) : bool :=
  match e with TxBegun => true | _ => false end.
Definition is_tx_committed (e : event) : bool :=
  match e with TxCommitted => true | _ => false end.
Definition is_session_event (e : event) : bool :=
  match e with SessionOpened | SessionClosed => true | _ => false end.

Lemma count_ev_app p t1 t2 : count_ev p (t1 ++ t2) = count_ev p t1 + count_ev p t2.
Proof. unfold count_ev; rewrite filter_app, length_app; reflexivity. Qed.

(** The managed transaction leaves the graph as it was or applies the
    upsert once. *)
Lemma write_transaction_graph g o u c :
  forall g1 o1 t r, write_transaction g o u c = (g1, o1, t, r) ->
  g1 = g \/ g1 = update_graph g u c.
Proof.
  induction o as [|[ | b | b | b] o IH]; simpl; intros g1 o1 t r H.
  - injection H as <- _ _ _; auto.
  - destruct (packable u && packable c); [destruct (prop_ok u && prop_ok c)|];
      injection H as <- _ _ _; auto.
  - destruct b; [|injection H as <- _ _ _; auto].
    case_eq (write_transaction g o u c); intros [[g' o''] t'] e' E; rewrite E in H.
    injection H as -> _ _ _; exact (IH _ _ _ _ E).
  - destruct (packable u && packable c); [destruct b|]; [|injection H as <- _ _ _; auto..].
    case_eq (write_transaction g o u c); intros [[g' o''] t'] e' E; rewrite E in H.
    injection H as -> _ _ _; exact (IH _ _ _ _ E).
  - destruct (packable u && packable c); [destruct (b && prop_ok u && prop_ok c)|];
      injection H as <- _ _ _; auto.
Qed.

(** Shape of the driver's trace: at least one transaction begins, exactly
    one commits when the call returns normally and none when it raises, and
    no session is opened or closed. *)
Lemma write_transaction_trace g o u c :
  forall g1 o1 t r, write_transaction g o u c = (g1, o1, t, r) ->
  1 <= count_ev is_tx_begun t /\
  count_ev is_tx_committed t = (match r with None => 1 | Some _ => 0 end) /\
  count_ev is_session_event t = 0.
Proof.
  induction o as [|[ | b | b | b] o IH]; simpl; intros g1 o1 t r H.
  - injection H as _ _ <- <-; vm_compute; auto.
  - destruct (packable u && packable c); [destruct (prop_ok u && prop_ok c)|];
      injection H as _ _ <- <-; vm_compute; auto.
  - destruct b.
    + case_eq (write_transaction g o u c); intros [[g' o''] t'] e' E; rewrite E in H.
      injection H as _ _ <- <-.
      destruct (IH _ _ _ _ E) as (H1 & H2 & H3); unfold count_ev in *; simpl; lia.
    + injection H as _ _ <- <-; vm_compute; auto.
  - destruct (packable u && packable c); [destruct b|].
    + case_eq (write_transaction g o u c); intros [[g' o''] t'] e' E; rewrite E in H.
      injection H as _ _ <- <-.
      destruct (IH _ _ _ _ E) as (H1 & H2 & H3); unfold count_ev in *; simpl; lia.
    + injection H as _ _ <- <-; vm_compute; auto.
    + injection H as _ _ <- <-; vm_compute; auto.
  - destruct (packable u && packable c); injection H as _ _ <- <-; vm_compute; auto.
Qed.

Lemma handle_write g o d u c :
  dict_get d "user" = Some u -> dict_get d "category" = Some c ->
  handle g o (JObj d) =
    let '(g', o', t, r) := write_transaction g o u c in
    (g', o', SessionOpened :: t ++ SessionClosed ::
               match r with Some e => [Neo4jError e] | None => [] end).
Proof. intros Hu Hc; unfold handle, subscript; rewrite Hu, Hc; reflexivity. Qed.

(** Payloads used in the examples: the UTF-8 bytes of
    {"user":"alice","category":"books"} and the empty payload. *)
Definition dq : string := String (Ascii.ascii_of_nat 34) EmptyString.
Definition quoted (s : string) : string := (dq ++ s ++ dq)%string.
Definition alice_payload : list Byte.byte :=
  list_byte_of_string
    ("{" ++ quoted "user" ++ ":" ++ quoted "alice" ++ "," ++
     quoted "category" ++ ":" ++ quoted "books" ++ "}")%string.
Definition alice_event : json :=
  JObj [("user"%string, JStr "alice"); ("category"%string, JStr "books")].

Fixpoint bytes_eqb (a b : list Byte.byte) : bool :=
  match a, b with
  | [], [] => true
  | x :: a', y :: b' => Byte.eqb x y && bytes_eqb a' b'
  | _, _ => false
  end.

(** [json.loads] on these two payloads: the empty document does not parse. *)
Definition example_loads (b : list Byte.byte) : option json :=
  if bytes_eqb b alice_payload then Some alice_event else None.

(** A second payload, {"user":"bob","category":"bikes"}, and [json.loads]
    on a batch holding both. *)
Definition bob_payload : list Byte.byte :=
  list_byte_of_string
    ("{" ++ quoted "user" ++ ":" ++ quoted "bob" ++ "," ++
     quoted "category" ++ ":" ++ quoted "bikes" ++ "}")%string.
Definition bob_event : json :=
  JObj [("user"%string, JStr "bob"); ("category"%string, JStr "bikes")].

Definition batch_loads (b : list Byte.byte) : option json :=
  if bytes_eqb b bob_payload then Some bob_event else example_loads b.

(** ** Properties of the loop *)

(** C2 (as the code does it): a payload that does not decode is raised by
    the consumer's iteration, outside the [try]: no session and no graph
    mutation happen for it, nothing is printed for it, and the exception
    leaves the loop, so none of the later messages is processed. *)
Theorem decode_failure_ends_loop (deserialize : list Byte.byte -> option json)
  (g : graph) (o : list attempt) (m : list Byte.byte) (ms : list (list Byte.byte)) :
  deserialize m = None ->
  run deserialize g o (m :: ms) = (g, o, [], Crashed JSONDecodeError).
Proof. intros H; simpl; rewrite H; reflexivity. Qed.

Lemma decode_failure_ends_loop_witness :
  example_loads [] = None /\
  run example_loads empty_graph [Reachable] ([] :: [alice_payload])
    = (empty_graph, [Reachable], [], Crashed JSONDecodeError).
Proof.
  split; [reflexivity|].
  apply decode_failure_ends_loop; reflexivity.
Defined.

(** C2 as stated fails: after an empty (malformed) payload, the well-formed
    event that follows it is never applied and the loop has stopped. *)
Lemma decode_failure_next_message_lost :
  let '(g, _, _, s) := run example_loads empty_graph [Reachable] ([] :: [alice_payload]) in
  count_users g (JStr "alice") = 0 /\ s = Crashed JSONDecodeError /\
  let '(g', _, _, s') := run example_loads empty_graph [Reachable] [alice_payload] in
  count_users g' (JStr "alice") = 1 /\ s' = Listening.
Proof. vm_compute; auto. Qed.

(** C3: an event object without the [user] key or without the [category]
    key opens and closes a session, runs no transaction, leaves the graph
    and the store untouched, logs the KeyError, and the loop goes on with
    the next message. *)
Theorem missing_key_skipped (deserialize : list Byte.byte -> option json)
  (g : graph) (o : list attempt) (m : list Byte.byte) (ms : list (list Byte.byte))
  (d : list (string * json)) :
  deserialize m = Some (JObj d) ->
  dict_get d "user" = None \/ dict_get d "category" = None ->
  exists k,
    run deserialize g o (m :: ms) =
      let '(g2, o2, t2, s) := run deserialize g o ms in
      (g2, o2, Received (JObj d) :: [SessionOpened; SessionClosed; Neo4jError (KeyError k)] ++ t2, s).
Proof.
  intros Hm Hk; simpl; rewrite Hm.
  unfold handle, subscript.
  destruct (dict_get d "user") as [u|] eqn:Hu.
  - destruct Hk as [Hk | Hk]; [discriminate|]; rewrite Hk.
    exists "category"%string; reflexivity.
  - exists "user"%string; reflexivity.
Qed.

Definition no_category_payload : list Byte.byte := [Byte.x01].
Definition no_category_event : json := JObj [("user"%string, JStr "alice")].

Lemma missing_key_skipped_witness :
  exists k,
    run (fun b => if bytes_eqb b no_category_payload then Some no_category_event
                  else example_loads b)
        empty_graph [Reachable] (no_category_payload :: [alice_payload]) =
    let '(g2, o2, t2, s) :=
      run (fun b => if bytes_eqb b no_category_payload then Some no_category_event
                    else example_loads b) empty_graph [Reachable] [alice_payload] in
    (g2, o2, Received no_category_event ::
               [SessionOpened; SessionClosed; Neo4jError (KeyError k)] ++ t2, s).
Proof.
  apply missing_key_skipped; [reflexivity | right; reflexivity].
Defined.

(** C4: when the write of a message raises, the error is printed after
    the session is closed, the message is not processed again, and the loop
    continues with the next message, with its own write attempt, from the
    graph the failed call left behind: the graph as it was, or, when the
    connection dropped during a commit the store applied, the graph with
    the upsert applied once. *)
Theorem write_failure_isolated (deserialize : list Byte.byte -> option json)
  (g : graph) (o : list attempt) (m : list Byte.byte) (ms : list (list Byte.byte))
  (d u c : json) (g1 : graph) (o1 : list attempt) (t : list event) (e : exn) :
  deserialize m = Some d -> subscript d "user" = inl u -> subscript d "category" = inl c ->
  write_transaction g o u c = (g1, o1, t, Some e) ->
  (g1 = g \/ g1 = update_graph g u c) /\
  run deserialize g o (m :: ms) =
    let '(g2, o2, t2, s) := run deserialize g1 o1 ms in
    (g2, o2, Received d :: (SessionOpened :: t ++ [SessionClosed; Neo4jError e]) ++ t2, s).
Proof.
  intros Hm Hu Hc Hw.
  split; [exact (write_transaction_graph _ _ _ _ _ _ _ _ Hw)|].
  simpl; rewrite Hm; unfold handle; rewrite Hu, Hc, Hw; reflexivity.
Qed.

Lemma write_failure_isolated_witness :
  (example_loads alice_payload = Some alice_event /\
   subscript alice_event "user" = inl (JStr "alice") /\
   subscript alice_event "category" = inl (JStr "books") /\
   write_transaction empty_graph [CommitUnknown true; Reachable] (JStr "alice") (JStr "books")
     = (update_graph empty_graph (JStr "alice") (JStr "books"), [Reachable],
        [TxBegun; GraphUpdated (JStr "alice") (JStr "books"); TxCommitUnknown],
        Some IncompleteCommit)) /\
  run example_loads empty_graph [CommitUnknown true; Reachable] [alice_payload; alice_payload] =
    let '(g2, o2, t2, s) :=
      run example_loads (update_graph empty_graph (JStr "alice") (JStr "books"))
          [Reachable] [alice_payload] in
    (g2, o2, Received alice_event ::
       (SessionOpened :: [TxBegun; GraphUpdated (JStr "alice") (JStr "books"); TxCommitUnknown]
          ++ [SessionClosed; Neo4jError IncompleteCommit]) ++ t2, s).
Proof.
  split; [repeat split; reflexivity|].
  exact (proj2 (write_failure_isolated example_loads empty_graph [CommitUnknown true; Reachable]
                  alice_payload [alice_payload]
                  alice_event (JStr "alice") (JStr "books")
                  (update_graph empty_graph (JStr "alice") (JStr "books")) [Reachable]
                  [TxBegun; GraphUpdated (JStr "alice") (JStr "books"); TxCommitUnknown]
                  IncompleteCommit eq_refl eq_refl eq_refl eq_refl)).
Defined.

(** C7: two event objects that agree on [user] and on [category] are
    handled identically (graph, store interaction and output), whatever
    their other fields. *)
Theorem extra_fields_ignored (g : graph) (o : list attempt) (d1 d2 : list (string * json)) :
  dict_get d1 "user" = dict_get d2 "user" ->
  dict_get d1 "category" = dict_get d2 "category" ->
  handle g o (JObj d1) = handle g o (JObj d2).
Proof. intros Hu Hc; unfold handle, subscript; rewrite Hu, Hc; reflexivity. Qed.

Lemma extra_fields_ignored_witness :
  handle empty_graph [Reachable]
    (JObj [("user"%string, JStr "alice"); ("category"%string, JStr "books")]) =
  handle empty_graph [Reachable]
    (JObj [("price"%string, JNum 12); ("user"%string, JStr "alice");
           ("tags"%string, JArr [JStr "new"]); ("category"%string, JStr "books")]).
Proof. apply extra_fields_ignored; reflexivity. Defined.

(** C8 (as the code does it): an event object with both keys opens one
    session, makes one [write_transaction] call inside it and closes the
    session whatever the outcome, before the error (if any) is printed.
    Within the call at least one transaction begins, exactly one commits
    when the call returns and none when it raises. *)
Theorem session_scoped (g : graph) (o : list attempt) (d : list (string * json)) (u c : json) :
  dict_get d "user" = Some u -> dict_get d "category" = Some c ->
  exists t tail,
    snd (handle g o (JObj d)) = SessionOpened :: t ++ SessionClosed :: tail /\
    count_ev is_session_event t = 0 /\
    1 <= count_ev is_tx_begun t /\ count_ev is_tx_committed t <= 1 /\
    (tail = [] \/ exists e, tail = [Neo4jError e]).
Proof.
  intros Hu Hc; rewrite (handle_write g o d u c Hu Hc).
  destruct (write_transaction g o u c) as [[[g' o'] t] r] eqn:E.
  destruct (write_transaction_trace _ _ _ _ _ _ _ _ E) as (H1 & H2 & H3).
  exists t, (match r with Some e => [Neo4jError e] | None => [] end); simpl.
  repeat split; auto.
  - destruct r; lia.
  - destruct r as [e|]; [right; exists e|left]; reflexivity.
Qed.

Lemma session_scoped_witness :
  exists t tail,
    snd (handle empty_graph [Unreachable true; Reachable] alice_event)
      = SessionOpened :: t ++ SessionClosed :: tail /\
    count_ev is_session_event t = 0 /\
    1 <= count_ev is_tx_begun t /\ count_ev is_tx_committed t <= 1 /\
    (tail = [] \/ exists e, tail = [Neo4jError e]).
Proof. apply session_scoped with (JStr "alice") (JStr "books"); reflexivity. Defined.

(** C8 as stated fails: when the store is briefly unreachable, the managed
    transaction runs the upsert in two transactions for one event. *)
Lemma session_two_transactions :
  count_ev is_tx_begun (snd (handle empty_graph [Unreachable true; Reachable] alice_event)) = 2.
Proof. vm_compute; reflexivity. Qed.

(** C9: whatever JSON values [user] and [category] hold (null, numbers,
    lists, objects), the loop calls the managed transaction with exactly
    those values, and a transaction is begun for them: nothing rejects a
    non-string value before the write. *)
Theorem keys_passed_unchecked (g : graph) (o : list attempt) (d : list (string * json)) (u c : json) :
  dict_get d "user" = Some u -> dict_get d "category" = Some c ->
  handle g o (JObj d) =
    (let '(g', o', t, r) := write_transaction g o u c in
     (g', o', SessionOpened :: t ++ SessionClosed ::
                match r with Some e => [Neo4jError e] | None => [] end)) /\
  exists t', snd (handle g o (JObj d)) = SessionOpened :: TxBegun :: t'.
Proof.
  intros Hu Hc; rewrite (handle_write g o d u c Hu Hc); split; [reflexivity|].
  destruct o as [|[ | [|] | [|] | b] o]; simpl;
    try (destruct (packable u && packable c));
    try (destruct (prop_ok u && prop_ok c));
    try (destruct (write_transaction g o u c) as [[[? ?] ?] ?]);
    eexists; reflexivity.
Qed.

Lemma keys_passed_unchecked_witness :
  exists t',
    snd (handle empty_graph [Reachable]
           (JObj [("user"%string, JNull); ("category"%string, JArr [JNum 1; JObj []])]))
    = SessionOpened :: TxBegun :: t'.
Proof.
  exact (proj2 (keys_passed_unchecked empty_graph [Reachable]
                  [("user"%string, JNull); ("category"%string, JArr [JNum 1; JObj []])]
                  JNull (JArr [JNum 1; JObj []]) eq_refl eq_refl)).
Defined.

(** C10: the success line is printed by the transaction function once
    [tx.run] has returned (the parameters pack) and before the commit: when
    the commit then fails, the line has been printed although the
    transaction rolled back and the graph is unchanged; likewise when a
    retryable commit failure leads to another attempt, when the connection
    drops during a commit the store did not apply, and when the store
    rejects the parameters at commit. *)
Theorem success_log_before_commit (g : graph) (o : list attempt) (u c : json) :
  packable u && packable c = true ->
  write_transaction g (CommitLost false :: o) u c
    = (g, o, [TxBegun; GraphUpdated u c; TxRolledBack], Some CommitFailed) /\
  (exists g' o' t r, write_transaction g (CommitLost true :: o) u c
     = (g', o', TxBegun :: GraphUpdated u c :: TxRolledBack :: t, r)) /\
  write_transaction g (CommitUnknown false :: o) u c
    = (g, o, [TxBegun; GraphUpdated u c; TxCommitUnknown], Some IncompleteCommit) /\
  (prop_ok u && prop_ok c = true \/
   write_transaction g (Reachable :: o) u c
     = (g, o, [TxBegun; GraphUpdated u c; TxRolledBack], Some ClientError)).
Proof.
  intros Hp; simpl; rewrite Hp.
  split; [reflexivity|]; split; [|split; [reflexivity|]].
  - destruct (write_transaction g o u c) as [[[g' o'] t] r]; eauto.
  - destruct (prop_ok u && prop_ok c); auto.
Qed.

Lemma success_log_before_commit_witness :
  packable (JStr "alice") && packable (JStr "books") = true /\
  write_transaction empty_graph [CommitLost false] (JStr "alice") (JStr "books")
    = (empty_graph, [], [TxBegun; GraphUpdated (JStr "alice") (JStr "books"); TxRolledBack],
       Some CommitFailed).
Proof.
  split; [reflexivity|].
  exact (proj1 (success_log_before_commit empty_graph [] (JStr "alice") (JStr "books") eq_refl)).
Defined.

(** ** Further properties of the MERGE query *)

Lemma merge_node_result ns v next ids ns' n' :
  merge_node ns v next = (ids, ns', n') ->
  ids_named ns' v = ids /\ ids <> [] /\ incl ns ns' /\ next <= n' /\
  (forall w, w <> v -> ids_named ns' w = ids_named ns w) /\
  ((ns' = ns /\ n' = next /\ ids = ids_named ns v) \/
   (ids_named ns v = [] /\ ns' = (next, v) :: ns /\ n' = S next /\ ids = [next])).
Proof.
  unfold merge_node; destruct (ids_named ns v) as [|k l] eqn:E; intros H;
    injection H as <- <- <-.
  - split; [rewrite ids_named_new, E; reflexivity|].
    split; [discriminate|]; split; [apply incl_tl, incl_refl|]; split; [lia|].
    split; [intros w Hw; apply ids_named_other; congruence|].
    right; auto.
  - split; [exact E|]; split; [discriminate|]; split; [apply incl_refl|].
    split; [lia|]; split; [auto|]; left; auto.
Qed.

Lemma merge_cat_rows_found us cs c n :
  ids_named cs c <> [] ->
  merge_cat_rows us cs c n = (flat_map (fun a => map (pair a) (ids_named cs c)) us, cs, n).
Proof.
  intros H; induction us as [|a us IH]; simpl; [reflexivity|].
  unfold merge_node at 1; destruct (ids_named cs c) as [|k l] eqn:E; [congruence|].
  rewrite IH; reflexivity.
Qed.

(** Every row pairs an incoming User with every Category named [c]; at most
    one Category is created. *)
Lemma merge_cat_rows_result us cs c n rows cs' n' :
  us <> [] -> merge_cat_rows us cs c n = (rows, cs', n') ->
  ids_named cs' c <> [] /\
  rows = flat_map (fun a => map (pair a) (ids_named cs' c)) us /\
  incl cs cs' /\ n <= n' /\
  (forall w, w <> c -> ids_named cs' w = ids_named cs w) /\
  ((cs' = cs /\ n' = n) \/ (ids_named cs c = [] /\ cs' = (n, c) :: cs /\ n' = S n)).
Proof.
  destruct us as [|a us]; [congruence|]; intros _; simpl.
  destruct (merge_node cs c n) as [[cids cs1] n1] eqn:M.
  destruct (merge_node_result _ _ _ _ _ _ M) as (I1 & Ne & S1 & L1 & O1 & Cases).
  rewrite merge_cat_rows_found by congruence; intros H; injection H as <- <- <-.
  rewrite I1; repeat split; auto.
  destruct Cases as [(-> & -> & _) | (E & -> & -> & _)]; [left | right]; auto.
Qed.

Lemma fold_merge_rel_incl rows rs : incl rs (fold_left merge_rel rows rs).
Proof.
  revert rs; induction rows as [|p rows IH]; simpl; intros rs; [apply incl_refl|].
  eapply incl_tran; [apply merge_rel_incl | apply IH].
Qed.

Lemma fold_merge_rel_rows rows rs : incl rows (fold_left merge_rel rows rs).
Proof.
  revert rs; induction rows as [|p rows IH]; simpl; intros rs q Hq; [destruct Hq|].
  destruct Hq as [<- | Hq]; [apply fold_merge_rel_incl, merge_rel_In | apply IH, Hq].
Qed.

Lemma fold_merge_rel_present rows rs : incl rows rs -> fold_left merge_rel rows rs = rs.
Proof.
  revert rs; induction rows as [|p rows IH]; simpl; intros rs H; [reflexivity|].
  unfold merge_rel at 2.
  rewrite (proj2 (existsb_pair_In p rs) (H p (or_introl eq_refl))).
  apply IH; intros q Hq; apply H; right; exact Hq.
Qed.


Lemma fold_merge_rel_cases rows rs q :
  In q (fold_left merge_rel rows rs) -> In q rs \/ In q rows.
Proof.
  revert rs; induction rows as [|p rows IH]; simpl; intros rs H; [auto|].
  destruct (IH _ H) as [H1 | H1]; [|auto].
  unfold merge_rel in H1; destruct existsb; [auto|].
  destruct H1 as [<- | H1]; auto.
Qed.

(** The shape of one application of the query. *)
Lemma update_graph_shape g u c :
  exists us n1 cs' n2 rows,
    merge_node (users g) u (next_id g) = (us, users (update_graph g u c), n1) /\
    merge_cat_rows us (cats g) c n1 = (rows, cs', n2) /\
    update_graph g u c = mkGraph n2 (users (update_graph g u c)) cs'
                                 (fold_left merge_rel rows (rels g)).
Proof.
  unfold update_graph.
  destruct (merge_node (users g) u (next_id g)) as [[us us'] n1] eqn:M.
  destruct (merge_cat_rows us (cats g) c n1) as [[rows cs'] n2] eqn:R.
  exists us, n1, cs', n2, rows; simpl; auto.
Qed.

Lemma update_graph_eq g u c us us' n1 rows cs' n2 :
  merge_node (users g) u (next_id g) = (us, us', n1) ->
  merge_cat_rows us (cats g) c n1 = (rows, cs', n2) ->
  update_graph g u c = mkGraph n2 us' cs' (fold_left merge_rel rows (rels g)).
Proof. intros M R; unfold update_graph; rewrite M; cbv beta iota; rewrite R; reflexivity. Qed.

Lemma ids_named_In ns v a : In a (ids_named ns v) -> exists w, In (a, w) ns.
Proof.
  unfold ids_named; intros H; apply in_map_iff in H as [[a' w] [<- H]].
  apply filter_In in H as [H _]; exists w; exact H.
Qed.

(** X1: the query only adds: every User, Category and relationship of the
    graph is still there afterwards, and the id counter never decreases. *)
Theorem update_graph_only_adds (g : graph) (u c : json) :
  incl (users g) (users (update_graph g u c)) /\
  incl (cats g) (cats (update_graph g u c)) /\
  incl (rels g) (rels (update_graph g u c)) /\
  next_id g <= next_id (update_graph g u c).
Proof.
  destruct (merge_node (users g) u (next_id g)) as [[us us'] n1] eqn:M.
  destruct (merge_cat_rows us (cats g) c n1) as [[rows cs'] n2] eqn:R.
  rewrite (update_graph_eq g u c us us' n1 rows cs' n2 M R); simpl.
  destruct (merge_node_result _ _ _ _ _ _ M) as (_ & Ne & Su & L1 & _).
  destruct (merge_cat_rows_result _ _ _ _ _ _ _ Ne R) as (_ & _ & Sc & L2 & _).
  repeat split; auto using fold_merge_rel_incl; lia.
Qed.

(** X2: MERGE binds every match: afterwards every User named [u] has a
    POSTED_IN relationship to every Category named [c] (also when the graph
    held several nodes of one name). *)
Theorem update_graph_links_all (g : graph) (u c : json) (a b : nat) :
  In a (ids_named (users (update_graph g u c)) u) ->
  In b (ids_named (cats (update_graph g u c)) c) ->
  In (a, b) (rels (update_graph g u c)).
Proof.
  destruct (merge_node (users g) u (next_id g)) as [[us us'] n1] eqn:M.
  destruct (merge_cat_rows us (cats g) c n1) as [[rows cs'] n2] eqn:R.
  rewrite (update_graph_eq g u c us us' n1 rows cs' n2 M R); simpl.
  destruct (merge_node_result _ _ _ _ _ _ M) as (Iu & Ne & _).
  destruct (merge_cat_rows_result _ _ _ _ _ _ _ Ne R) as (_ & Hrows & _).
  intros Ha Hb; apply fold_merge_rel_rows; rewrite Hrows, Iu in *.
  apply in_flat_map; exists a; split; [exact Ha|].
  apply in_map; exact Hb.
Qed.

Lemma update_graph_links_all_witness :
  In 0 (ids_named (users (update_graph (mkGraph 3 [(0, JStr "a"); (1, JStr "a")] [(2, JStr "b")] [])
                                        (JStr "a") (JStr "b"))) (JStr "a")) /\
  In 2 (ids_named (cats (update_graph (mkGraph 3 [(0, JStr "a"); (1, JStr "a")] [(2, JStr "b")] [])
                                       (JStr "a") (JStr "b"))) (JStr "b")) /\
  In (0, 2) (rels (update_graph (mkGraph 3 [(0, JStr "a"); (1, JStr "a")] [(2, JStr "b")] [])
                                (JStr "a") (JStr "b"))).
Proof.
  assert (H1 : In 0 (ids_named (users (update_graph (mkGraph 3 [(0, JStr "a"); (1, JStr "a")]
                     [(2, JStr "b")] []) (JStr "a") (JStr "b"))) (JStr "a")))
    by (vm_compute; auto).
  assert (H2 : In 2 (ids_named (cats (update_graph (mkGraph 3 [(0, JStr "a"); (1, JStr "a")]
                     [(2, JStr "b")] []) (JStr "a") (JStr "b"))) (JStr "b")))
    by (vm_compute; auto).
  split; [exact H1|]; split; [exact H2|].
  exact (update_graph_links_all _ _ _ _ _ H1 H2).
Defined.


(** X4: a node is created only when none of that name exists: afterwards
    the number of Users named [u] is [max 1] of what it was, the number of
    Categories named [c] likewise, and the nodes of every other name are
    the same as before. *)
Theorem update_graph_counts (g : graph) (u c : json) :
  count_users (update_graph g u c) u = Nat.max 1 (count_users g u) /\
  count_cats (update_graph g u c) c = Nat.max 1 (count_cats g c) /\
  (forall v, v <> u -> ids_named (users (update_graph g u c)) v = ids_named (users g) v) /\
  (forall w, w <> c -> ids_named (cats (update_graph g u c)) w = ids_named (cats g) w).
Proof.
  destruct (merge_node (users g) u (next_id g)) as [[us us'] n1] eqn:M.
  destruct (merge_cat_rows us (cats g) c n1) as [[rows cs'] n2] eqn:R.
  rewrite (update_graph_eq g u c us us' n1 rows cs' n2 M R).
  destruct (merge_node_result _ _ _ _ _ _ M) as (Iu & Ne & _ & _ & Ou & Cu).
  destruct (merge_cat_rows_result _ _ _ _ _ _ _ Ne R) as (Nc & _ & _ & _ & Oc & Cc).
  unfold count_users, count_cats; simpl.
  split; [|split; [|split; assumption]].
  - rewrite Iu; destruct Cu as [(_ & _ & ->) | (E & _ & _ & ->)].
    + destruct (ids_named (users g) u); [congruence | simpl; lia].
    + rewrite E; reflexivity.
  - destruct Cc as [(-> & _) | (E & -> & _)].
    + destruct (ids_named (cats g) c); [congruence | simpl; lia].
    + rewrite ids_named_new, E; reflexivity.
Qed.

(** The query keeps every id below the counter ([wf]). *)
Lemma update_graph_wf (g : graph) (u c : json) : wf g -> wf (update_graph g u c).
Proof.
  intros (Wu & Wc & Wr).
  destruct (merge_node (users g) u (next_id g)) as [[us us'] n1] eqn:M.
  destruct (merge_cat_rows us (cats g) c n1) as [[rows cs'] n2] eqn:R.
  rewrite (update_graph_eq g u c us us' n1 rows cs' n2 M R).
  destruct (merge_node_result _ _ _ _ _ _ M) as (Iu & Ne & _ & L1 & _ & Cu).
  destruct (merge_cat_rows_result _ _ _ _ _ _ _ Ne R) as (_ & Hrows & _ & L2 & _ & Cc).
  rewrite Forall_forall in Wu, Wc, Wr.
  assert (Bu : forall p, In p us' -> fst p < n1).
  { destruct Cu as [(-> & -> & _) | (_ & -> & -> & _)]; intros p Hp;
      [apply Wu, Hp | destruct Hp as [<- | Hp]; simpl; [lia | specialize (Wu p Hp); lia]]. }
  assert (Bc : forall p, In p cs' -> fst p < n2).
  { destruct Cc as [(-> & ->) | (_ & -> & ->)]; intros p Hp;
      [specialize (Wc p Hp); lia | destruct Hp as [<- | Hp]; simpl; [lia | specialize (Wc p Hp); lia]]. }
  unfold wf; simpl; rewrite !Forall_forall; split; [|split].
  - intros p Hp; specialize (Bu p Hp); lia.
  - exact Bc.
  - intros [a b] Hab; apply fold_merge_rel_cases in Hab as [Hab | Hab].
    + specialize (Wr _ Hab); simpl in *; lia.
    + rewrite Hrows in Hab; apply in_flat_map in Hab as [a' [Ha Hab]].
      apply in_map_iff in Hab as [b' [Hp Hb]]; injection Hp as <- <-.
      rewrite <- Iu in Ha.
      destruct (ids_named_In _ _ _ Ha) as [w Hw]; destruct (ids_named_In _ _ _ Hb) as [w' Hw'].
      specialize (Bu _ Hw); specialize (Bc _ Hw'); simpl in *; lia.
Qed.

(** A consistent store: ids below the counter, no id shared by two nodes,
    and every relationship going from an existing User to an existing
    Category. *)
Definition store_ok (g : graph) : Prop :=
  wf g /\ NoDup (map fst (users g) ++ map fst (cats g)) /\
  Forall (fun r => In (fst r) (map fst (users g)) /\ In (snd r) (map fst (cats g))) (rels g).

Lemma nodup_insert_fresh (l1 l2 : list nat) (x : nat) :
  NoDup (l1 ++ l2) -> ~ In x (l1 ++ l2) -> NoDup (l1 ++ x :: l2).
Proof.
  intros N Hx; apply Permutation_NoDup with (x :: l1 ++ l2);
    [apply Permutation_middle | constructor; assumption].
Qed.

(** X5: the query keeps the store consistent: the nodes it creates take
    ids not used before (at or above the counter), no two nodes share an
    id, and every relationship links an existing User to an existing
    Category. *)
Theorem update_graph_store_ok (g : graph) (u c : json) :
  store_ok g ->
  store_ok (update_graph g u c) /\
  (forall p, In p (users (update_graph g u c)) -> ~ In p (users g) -> next_id g <= fst p) /\
  (forall p, In p (cats (update_graph g u c)) -> ~ In p (cats g) -> next_id g <= fst p).
Proof.
  intros (W & N & L).
  pose proof (update_graph_wf g u c W) as W'.
  destruct (merge_node (users g) u (next_id g)) as [[us us'] n1] eqn:M.
  destruct (merge_cat_rows us (cats g) c n1) as [[rows cs'] n2] eqn:R.
  rewrite (update_graph_eq g u c us us' n1 rows cs' n2 M R) in W' |- *.
  destruct (merge_node_result _ _ _ _ _ _ M) as (Iu & Ne & Su & L1 & _ & Cu).
  destruct (merge_cat_rows_result _ _ _ _ _ _ _ Ne R) as (Ic & Hrows & Sc & L2 & _ & Cc).
  destruct W as (Wu & Wc & _); rewrite Forall_forall in Wu, Wc, L.
  assert (Fu : forall a, In a (map fst (users g)) -> a < next_id g)
    by (intros a Ha; apply in_map_iff in Ha as [p [<- Hp]]; apply Wu, Hp).
  assert (Fc : forall a, In a (map fst (cats g)) -> a < next_id g)
    by (intros a Ha; apply in_map_iff in Ha as [p [<- Hp]]; apply Wc, Hp).
  assert (Fr : forall a, In a (map fst (users g) ++ map fst (cats g)) -> a < next_id g)
    by (intros a Ha; apply in_app_or in Ha as [Ha | Ha]; [apply Fu | apply Fc]; exact Ha).
  split; [split; [exact W' | split] | split].
  - simpl.
    destruct Cu as [(-> & -> & _) | (_ & -> & -> & _)];
      destruct Cc as [(-> & ->) | (_ & -> & ->)]; simpl.
    + exact N.
    + apply nodup_insert_fresh; [exact N|]; intros Hin; specialize (Fr _ Hin); lia.
    + constructor; [|exact N]; intros Hin; specialize (Fr _ Hin); lia.
    + constructor.
      * intros Hin; apply in_app_or in Hin as [Hin | [Hin | Hin]];
          [specialize (Fu _ Hin) | | specialize (Fc _ Hin)]; lia.
      * apply nodup_insert_fresh; [exact N|]; intros Hin; specialize (Fr _ Hin); lia.
  - rewrite Forall_forall; intros [a b] Hab; simpl.
    apply fold_merge_rel_cases in Hab as [Hab | Hab].
    + destruct (L _ Hab) as [Ha Hb]; simpl in Ha, Hb.
      apply in_map_iff in Ha as [p [<- Hp]]; apply in_map_iff in Hb as [q [<- Hq]].
      split; apply in_map; [apply Su | apply Sc]; assumption.
    + rewrite Hrows in Hab; apply in_flat_map in Hab as [a' [Ha Hab]].
      apply in_map_iff in Hab as [b' [Hp Hb]]; injection Hp as <- <-.
      rewrite <- Iu in Ha.
      destruct (ids_named_In _ _ _ Ha) as [w Hw]; destruct (ids_named_In _ _ _ Hb) as [w' Hw'].
      split; [apply (in_map fst) in Hw | apply (in_map fst) in Hw']; assumption.
  - intros p Hp Hn; simpl in Hp.
    destruct Cu as [(-> & _) | (_ & -> & _)]; [contradiction|].
    destruct Hp as [<- | Hp]; [simpl; lia | contradiction].
  - intros p Hp Hn; simpl in Hp.
    destruct Cc as [(-> & _) | (_ & -> & _)]; [contradiction|].
    destruct Hp as [<- | Hp]; [simpl; lia | contradiction].
Qed.

Lemma update_graph_store_ok_witness :
  store_ok (mkGraph 2 [(0, JStr "a")] [(1, JStr "b")] [(0, 1)]) /\
  store_ok (update_graph (mkGraph 2 [(0, JStr "a")] [(1, JStr "b")] [(0, 1)]) (JStr "a") (JStr "y")).
Proof.
  assert (S : store_ok (mkGraph 2 [(0, JStr "a")] [(1, JStr "b")] [(0, 1)])).
  { split; [unfold wf; simpl; repeat constructor; simpl; lia|split].
    - simpl; repeat constructor; simpl; intuition discriminate.
    - simpl; repeat constructor; simpl; auto. }
  split; [exact S | exact (proj1 (update_graph_store_ok _ _ _ S))].
Defined.




(** ** Further properties of the loop *)

(** The two keys the loop reads, when both are there. *)
Definition keys_of (data : json) : option (json * json) :=
  match subscript data "user" with
  | inl u => match subscript data "category" with
             | inl c => Some (u, c)
             | inr _ => None
             end
  | inr _ => None
  end.

Definition is_graph_updated (e : event) : bool :=
  match e with GraphUpdated _ _ => true | _ => false end.

(** X7: a managed write either returns normally, having applied the query
    exactly once to parameters that pack and that the store accepts, or
    raises; a raise leaves the graph as it was, except [IncompleteCommit]
    (connection lost during COMMIT), after which the query may have been
    applied once. *)
Theorem write_transaction_outcome (g : graph) (o : list attempt) (u c : json) :
  forall g1 o1 t r, write_transaction g o u c = (g1, o1, t, r) ->
  (r = None /\ g1 = update_graph g u c /\
   packable u && packable c = true /\ prop_ok u && prop_ok c = true) \/
  (exists e, r = Some e /\ (g1 = g \/ (e = IncompleteCommit /\ g1 = update_graph g u c))).
Proof.
  induction o as [|[ | b | b | b] o IH]; simpl; intros g1 o1 t r H.
  - injection H as <- _ _ <-; right; eauto.
  - destruct (packable u && packable c) eqn:P; [destruct (prop_ok u && prop_ok c) eqn:Q|];
      injection H as <- _ _ <-; [left | right | right]; eauto.
  - destruct b.
    + case_eq (write_transaction g o u c); intros [[g' o''] t'] e' E; rewrite E in H.
      injection H as <- _ _ <-; exact (IH _ _ _ _ E).
    + injection H as <- _ _ <-; right; eauto.
  - destruct (packable u && packable c); [destruct b|].
    + case_eq (write_transaction g o u c); intros [[g' o''] t'] e' E; rewrite E in H.
      injection H as <- _ _ <-; exact (IH _ _ _ _ E).
    + injection H as <- _ _ <-; right; eauto.
    + injection H as <- _ _ <-; right; eauto.
  - destruct (packable u && packable c); [destruct (b && prop_ok u && prop_ok c)|];
      injection H as <- _ _ <-; right; eauto 6.
Qed.

Lemma write_transaction_outcome_witness :
  write_transaction empty_graph [CommitLost true; Reachable] (JStr "a") (JStr "b")
    = (update_graph empty_graph (JStr "a") (JStr "b"), [],
       [TxBegun; GraphUpdated (JStr "a") (JStr "b"); TxRolledBack;
        TxBegun; GraphUpdated (JStr "a") (JStr "b"); TxCommitted], None) /\
  ((@None exn = None /\ update_graph empty_graph (JStr "a") (JStr "b")
                        = update_graph empty_graph (JStr "a") (JStr "b") /\
    packable (JStr "a") && packable (JStr "b") = true /\
    prop_ok (JStr "a") && prop_ok (JStr "b") = true) \/
   (exists e, @None exn = Some e /\
              (update_graph empty_graph (JStr "a") (JStr "b") = empty_graph \/
               (e = IncompleteCommit /\
                update_graph empty_graph (JStr "a") (JStr "b")
                  = update_graph empty_graph (JStr "a") (JStr "b"))))).
Proof.
  assert (H : write_transaction empty_graph [CommitLost true; Reachable] (JStr "a") (JStr "b")
    = (update_graph empty_graph (JStr "a") (JStr "b"), [],
       [TxBegun; GraphUpdated (JStr "a") (JStr "b"); TxRolledBack;
        TxBegun; GraphUpdated (JStr "a") (JStr "b"); TxCommitted], None)) by reflexivity.
  split; [exact H | exact (write_transaction_outcome _ _ _ _ _ _ _ _ H)].
Defined.

(** X16: parameters holding an integer outside int64 never reach the
    store: the call raises (an [OverflowError] from [tx.run], or
    [ServiceUnavailable] when no attempt reaches the store), the success
    line is never printed, nothing commits and the graph is unchanged. *)
Theorem write_transaction_overflow (g : graph) (o : list attempt) (u c : json) :
  packable u && packable c = false ->
  forall g1 o1 t r, write_transaction g o u c = (g1, o1, t, r) ->
  g1 = g /\ count_ev is_graph_updated t = 0 /\ count_ev is_tx_committed t = 0 /\
  (r = Some OverflowError \/ r = Some ServiceUnavailable).
Proof.
  intros P; induction o as [|[ | b | b | b] o IH]; simpl; intros g1 o1 t r H;
    rewrite ?P in H.
  - injection H as <- _ <- <-; vm_compute; auto.
  - injection H as <- _ <- <-; vm_compute; auto.
  - destruct b.
    + case_eq (write_transaction g o u c); intros [[g' o''] t'] e' E; rewrite E in H.
      injection H as <- _ <- <-.
      destruct (IH _ _ _ _ E) as (H1 & H2 & H3 & H4); unfold count_ev in *; simpl; auto.
    + injection H as <- _ <- <-; vm_compute; auto.
  - injection H as <- _ <- <-; vm_compute; auto.
  - injection H as <- _ <- <-; vm_compute; auto.
Qed.

Lemma write_transaction_overflow_witness :
  packable (JStr "alice") && packable (JArr [JNum (2 ^ 63)]) = false /\
  write_transaction empty_graph [Unreachable true; Reachable] (JStr "alice") (JArr [JNum (2 ^ 63)])
    = (empty_graph, [], [TxBegun; TxRolledBack; TxBegun; TxRolledBack], Some OverflowError) /\
  count_ev is_graph_updated [TxBegun; TxRolledBack; TxBegun; TxRolledBack] = 0.
Proof.
  assert (P : packable (JStr "alice") && packable (JArr [JNum (2 ^ 63)]) = false) by reflexivity.
  assert (H : write_transaction empty_graph [Unreachable true; Reachable]
                (JStr "alice") (JArr [JNum (2 ^ 63)])
    = (empty_graph, [], [TxBegun; TxRolledBack; TxBegun; TxRolledBack], Some OverflowError))
    by reflexivity.
  split; [exact P | split; [exact H|]].
  exact (proj1 (proj2 (write_transaction_overflow _ _ _ _ P _ _ _ _ H))).
Defined.

(** X8: a decoded value that is not a JSON object (a list, string, number,
    boolean or null) makes [data['user']] raise a TypeError: the session is
    opened and closed, no transaction runs, the graph and the store are
    untouched and the error is printed. *)
Theorem handle_non_object (g : graph) (o : list attempt) (data : json) :
  (forall d, data <> JObj d) ->
  handle g o data = (g, o, [SessionOpened; SessionClosed; Neo4jError TypeError]).
Proof.
  intros H; destruct data; try reflexivity.
  exfalso; exact (H d eq_refl).
Qed.

Lemma handle_non_object_witness :
  (forall d, JArr [JStr "alice"; JStr "books"] <> JObj d) /\
  handle empty_graph [Reachable] (JArr [JStr "alice"; JStr "books"])
    = (empty_graph, [Reachable], [SessionOpened; SessionClosed; Neo4jError TypeError]).
Proof.
  assert (H : forall d, JArr [JStr "alice"; JStr "books"] <> JObj d) by discriminate.
  split; [exact H | exact (handle_non_object _ _ _ H)].
Defined.

Lemma handle_result g o data g' o' t :
  handle g o data = (g', o', t) ->
  g' = g \/ (exists u c, keys_of data = Some (u, c) /\ g' = update_graph g u c).
Proof.
  unfold handle, keys_of.
  destruct (subscript data "user") as [u|e]; [|intros H; injection H as <- _ _; auto].
  destruct (subscript data "category") as [c|e]; [|intros H; injection H as <- _ _; auto].
  destruct (write_transaction g o u c) as [[[g1 o1] t1] r] eqn:E; intros H.
  injection H as <- _ _.
  destruct (write_transaction_graph _ _ _ _ _ _ _ _ E) as [-> | ->];
    [left; reflexivity | right; eauto].
Qed.

Lemma run_invariant (P : graph -> Prop) (deserialize : list Byte.byte -> option json) :
  (forall g u c, P g -> P (update_graph g u c)) ->
  forall ms g o g' o' t s, P g -> run deserialize g o ms = (g', o', t, s) -> P g'.
Proof.
  intros HP ms; induction ms as [|m ms IH]; simpl; intros g o g' o' t s Hg H.
  - injection H as <- _ _ _; exact Hg.
  - destruct (deserialize m) as [data|]; [|injection H as <- _ _ _; exact Hg].
    destruct (handle g o data) as [[g1 o1] t1] eqn:E.
    destruct (run deserialize g1 o1 ms) as [[[g2 o2] t2] s2] eqn:R.
    injection H as <- _ _ _.
    apply (IH g1 o1 g2 o2 t2 s2); [|exact R].
    destruct (handle_result _ _ _ _ _ _ E) as [-> | (u & c & _ & ->)]; auto.
Qed.

(** X10: the loop only adds to the graph: whatever the messages and the
    store do, every node and relationship present before a run is present
    after it. *)
Theorem run_only_adds (deserialize : list Byte.byte -> option json) (g : graph)
  (o : list attempt) (ms : list (list Byte.byte)) :
  let '(g', _, _, _) := run deserialize g o ms in
  incl (users g) (users g') /\ incl (cats g) (cats g') /\ incl (rels g) (rels g').
Proof.
  destruct (run deserialize g o ms) as [[[g' o'] t] s] eqn:R.
  apply (run_invariant (fun h => incl (users g) (users h) /\ incl (cats g) (cats h) /\
                                 incl (rels g) (rels h)) deserialize) with ms g o o' t s;
    [| repeat split; apply incl_refl | exact R].
  intros h u c (H1 & H2 & H3); destruct (update_graph_only_adds h u c) as (A1 & A2 & A3 & _).
  repeat split; eapply incl_tran; eauto.
Qed.



Definition is_received (e : event) : bool :=
  match e with Received _ => true | _ => false end.
Definition is_session_opened (e : event) : bool :=
  match e with SessionOpened => true | _ => false end.
Definition is_session_closed (e : event) : bool :=
  match e with SessionClosed => true | _ => false end.

Lemma write_transaction_quiet g o u c :
  forall g1 o1 t r, write_transaction g o u c = (g1, o1, t, r) ->
  count_ev is_received t = 0 /\ count_ev is_session_opened t = 0 /\
  count_ev is_session_closed t = 0.
Proof.
  induction o as [|[ | b | b | b] o IH]; simpl; intros g1 o1 t r H.
  - injection H as _ _ <- _; vm_compute; auto.
  - destruct (packable u && packable c); [destruct (prop_ok u && prop_ok c)|];
      injection H as _ _ <- _; vm_compute; auto.
  - destruct b.
    + case_eq (write_transaction g o u c); intros [[g' o''] t'] e' E; rewrite E in H.
      injection H as _ _ <- _.
      destruct (IH _ _ _ _ E) as (H1 & H2 & H3); unfold count_ev in *; simpl; lia.
    + injection H as _ _ <- _; vm_compute; auto.
  - destruct (packable u && packable c); [destruct b|].
    + case_eq (write_transaction g o u c); intros [[g' o''] t'] e' E; rewrite E in H.
      injection H as _ _ <- _.
      destruct (IH _ _ _ _ E) as (H1 & H2 & H3); unfold count_ev in *; simpl; lia.
    + injection H as _ _ <- _; vm_compute; auto.
    + injection H as _ _ <- _; vm_compute; auto.
  - destruct (packable u && packable c); injection H as _ _ <- _; vm_compute; auto.
Qed.

(** The output of one decoded message: its echo, then one session,
    opened and closed, holding the driver's events (no echo, no session
    event and at most one commit among them), then at most one error line. *)
Definition message_block (data : json) (b : list event) : Prop :=
  exists t tail,
    b = Received data :: SessionOpened :: t ++ SessionClosed :: tail /\
    count_ev is_received t = 0 /\ count_ev is_session_event t = 0 /\
    count_ev is_tx_committed t <= 1 /\
    (tail = [] \/ exists e, tail = [Neo4jError e]).

Lemma handle_block g o data g1 o1 t1 :
  handle g o data = (g1, o1, t1) -> message_block data (Received data :: t1).
Proof.
  unfold handle.
  destruct (subscript data "user") as [u|e];
    [|intros H; injection H as _ _ <-; exists [], [Neo4jError e];
      repeat split; vm_compute; eauto].
  destruct (subscript data "category") as [c|e];
    [|intros H; injection H as _ _ <-; exists [], [Neo4jError e];
      repeat split; vm_compute; eauto].
  destruct (write_transaction g o u c) as [[[g2 o2] t] r] eqn:E; intros H.
  injection H as _ _ <-.
  destruct (write_transaction_quiet _ _ _ _ _ _ _ _ E) as (Q1 & _ & _).
  destruct (write_transaction_trace _ _ _ _ _ _ _ _ E) as (_ & Q2 & Q3).
  exists t, (match r with Some e => [Neo4jError e] | None => [] end).
  repeat split; auto.
  - destruct r; lia.
  - destruct r as [e|]; [right; exists e|left]; reflexivity.
Qed.

(** X12: the loop's output is made of one block per message it processed,
    in order: the n-th block belongs to the n-th message, which decoded,
    and is its echo followed by exactly one session (opened and closed,
    with at most one commit inside) and at most one error line.  Either
    every message was processed and the loop is listening, or the first
    message after the blocks failed to decode and ended the loop. *)
Theorem run_blocks (deserialize : list Byte.byte -> option json)
  (ms : list (list Byte.byte)) :
  forall g o g' o' t s, run deserialize g o ms = (g', o', t, s) ->
  exists bs, t = List.concat bs /\
    Forall2 (fun m b => exists data, deserialize m = Some data /\ message_block data b)
            (firstn (List.length bs) ms) bs /\
    ((s = Listening /\ List.length bs = List.length ms) \/
     (s = Crashed JSONDecodeError /\
      exists m, nth_error ms (List.length bs) = Some m /\ deserialize m = None)).
Proof.
  induction ms as [|m ms IH]; simpl; intros g o g' o' t s H.
  - injection H as _ _ <- <-; exists []; simpl; auto.
  - destruct (deserialize m) as [data|] eqn:Dm;
      [|injection H as _ _ <- <-; exists []; simpl; eauto 7].
    destruct (handle g o data) as [[g1 o1] t1] eqn:E.
    destruct (run deserialize g1 o1 ms) as [[[g2 o2] t2] s2] eqn:R.
    injection H as _ _ <- <-.
    destruct (IH _ _ _ _ _ _ R) as (bs & Ht & Hf & Hs).
    exists ((Received data :: t1) :: bs); simpl.
    split; [rewrite Ht; reflexivity|].
    split; [constructor; [exists data; split; [exact Dm | exact (handle_block _ _ _ _ _ _ E)] | exact Hf]|].
    destruct Hs as [[-> ->] | [-> Hm]]; [left | right]; auto.
Qed.

Lemma run_blocks_witness :
  let '(_, _, t, s) := run example_loads empty_graph [Unreachable false; Reachable]
                           [alice_payload; alice_payload] in
  exists bs, t = List.concat bs /\ List.length bs = 2 /\ s = Listening.
Proof.
  destruct (run example_loads empty_graph [Unreachable false; Reachable]
              [alice_payload; alice_payload]) as [[[g' o'] t] s] eqn:R.
  pose proof R as R'; vm_compute in R'; injection R' as _ _ _ Hs.
  destruct (run_blocks _ _ _ _ _ _ _ _ R) as (bs & Ht & _ & [[_ Hl] | [Hc _]]).
  - exists bs; auto.
  - rewrite Hc in Hs; discriminate Hs.
Defined.

(** The (user, category) pair a message carries, if it decodes to an
    object with both keys. *)
Definition event_keys (deserialize : list Byte.byte -> option json) (m : list Byte.byte)
  : option (json * json) :=
  match deserialize m with Some data => keys_of data | None => None end.

(** Applying the query for a sequence of (user, category) pairs. *)
Definition apply_events (g : graph) (es : list (json * json)) : graph :=
  fold_left (fun h e => update_graph h (fst e) (snd e)) es g.

Definition events_of (deserialize : list Byte.byte -> option json) (ms : list (list Byte.byte))
  : list (json * json) :=
  flat_map (fun m => match event_keys deserialize m with Some e => [e] | None => [] end) ms.

Lemma handle_keys g o data u c :
  keys_of data = Some (u, c) ->
  handle g o data =
    let '(g', o', t, r) := write_transaction g o u c in
    (g', o', SessionOpened :: t ++ SessionClosed ::
               match r with Some e => [Neo4jError e] | None => [] end).
Proof.
  unfold keys_of, handle.
  destruct (subscript data "user") as [u'|e]; [|discriminate].
  destruct (subscript data "category") as [c'|e]; [|discriminate].
  intros H; injection H as -> ->; reflexivity.
Qed.

Lemma run_accepting (deserialize : list Byte.byte -> option json)
  (ms : list (list Byte.byte)) (g : graph) (o : list attempt) :
  (forall m, In m ms -> exists u c, event_keys deserialize m = Some (u, c) /\
                                    prop_ok u && prop_ok c = true /\
                                    packable u && packable c = true) ->
  exists t, run deserialize g (repeat Reachable (List.length ms) ++ o) ms
            = (apply_events g (events_of deserialize ms), o, t, Listening).
Proof.
  revert g; induction ms as [|m ms IH]; intros g H; simpl; [eauto|].
  destruct (H m (or_introl eq_refl)) as (u & c & Ek & Ok & Pk).
  unfold event_keys in Ek; unfold events_of; simpl; unfold event_keys at 1.
  destruct (deserialize m) as [data|]; [|discriminate].
  rewrite Ek, (handle_keys g _ data u c Ek); simpl; rewrite Pk, Ok.
  destruct (IH (update_graph g u c)) as [t IHt];
    [intros m' Hm'; apply H; right; exact Hm'|].
  rewrite IHt; eexists; reflexivity.
Qed.

(** X13: with a store that accepts every transaction, processing messages
    that each carry a [user] and a [category] whose values pack (integers
    within int64) and are accepted as property values yields the graph
    obtained by applying the query to their pairs in order; each message
    uses one transaction and the loop keeps listening. *)
Theorem run_all_accepted (deserialize : list Byte.byte -> option json)
  (ms : list (list Byte.byte)) (g : graph) (o : list attempt) :
  (forall m, In m ms -> exists u c, event_keys deserialize m = Some (u, c) /\
                                    prop_ok u && prop_ok c = true /\
                                    packable u && packable c = true) ->
  exists t, run deserialize g (repeat Reachable (List.length ms) ++ o) ms
            = (apply_events g (events_of deserialize ms), o, t, Listening).
Proof. exact (run_accepting deserialize ms g o). Qed.

Lemma run_all_accepted_witness :
  exists t, run batch_loads empty_graph (repeat Reachable 2 ++ []) [alice_payload; bob_payload]
            = (apply_events empty_graph (events_of batch_loads [alice_payload; bob_payload]),
               [], t, Listening).
Proof.
  apply (run_all_accepted batch_loads [alice_payload; bob_payload] empty_graph []).
  intros m [<- | [<- | []]]; [exists (JStr "alice"), (JStr "books") | exists (JStr "bob"), (JStr "bikes")];
    repeat split; reflexivity.
Defined.

(** A pair is [linked] in a graph when there are Users named [u] and
    Categories named [c] and all of them are related. *)
Definition linked (g : graph) (u c : json) : Prop :=
  ids_named (users g) u <> [] /\ ids_named (cats g) c <> [] /\
  (forall a b, In a (ids_named (users g) u) -> In b (ids_named (cats g) c) -> In (a, b) (rels g)).

Lemma update_graph_keeps_ids g u c v w :
  ids_named (users g) v <> [] -> ids_named (cats g) w <> [] ->
  ids_named (users (update_graph g u c)) v = ids_named (users g) v /\
  ids_named (cats (update_graph g u c)) w = ids_named (cats g) w.
Proof.
  intros Hv Hw.
  destruct (update_graph_counts g u c) as (_ & _ & Ou & Oc).
  destruct (merge_node (users g) u (next_id g)) as [[us us'] n1] eqn:M.
  destruct (merge_cat_rows us (cats g) c n1) as [[rows cs'] n2] eqn:R.
  destruct (merge_node_result _ _ _ _ _ _ M) as (Iu & Ne & _ & _ & _ & Cu).
  destruct (merge_cat_rows_result _ _ _ _ _ _ _ Ne R) as (_ & _ & _ & _ & _ & Cc).
  pose proof (update_graph_eq g u c us us' n1 rows cs' n2 M R) as E.
  split.
  - destruct (json_eqb v u) eqn:J; [apply json_eqb_eq in J; subst v|
      apply Ou; intros ->; rewrite json_eqb_refl in J; discriminate].
    rewrite E; simpl.
    destruct Cu as [(-> & _) | (Z & _)]; [reflexivity | contradiction].
  - destruct (json_eqb w c) eqn:J; [apply json_eqb_eq in J; subst w|
      apply Oc; intros ->; rewrite json_eqb_refl in J; discriminate].
    rewrite E; simpl.
    destruct Cc as [(-> & _) | (Z & _)]; [reflexivity | contradiction].
Qed.

Lemma linked_update g u c u' c' : linked g u c -> linked (update_graph g u' c') u c.
Proof.
  intros (Hu & Hc & Hl).
  destruct (update_graph_keeps_ids g u' c' u c Hu Hc) as [Eu Ec].
  destruct (update_graph_only_adds g u' c') as (_ & _ & Sr & _).
  unfold linked; rewrite Eu, Ec; repeat split; auto.
Qed.

Lemma linked_after g u c : linked (update_graph g u c) u c.
Proof.
  destruct (update_graph_counts g u c) as (Cu & Cc & _).
  unfold linked; split; [|split; [|apply update_graph_links_all]].
  - intros E; unfold count_users in Cu; rewrite E in Cu; simpl List.length in Cu; lia.
  - intros E; unfold count_cats in Cc; rewrite E in Cc; simpl List.length in Cc; lia.
Qed.

Lemma linked_fixed g u c : linked g u c -> update_graph g u c = g.
Proof.
  intros (Hu & Hc & Hl).
  assert (Mu : merge_node (users g) u (next_id g) = (ids_named (users g) u, users g, next_id g))
    by (unfold merge_node; destruct (ids_named (users g) u); [congruence | reflexivity]).
  rewrite (update_graph_eq g u c _ _ _ _ _ _ Mu (merge_cat_rows_found _ _ c (next_id g) Hc)).
  rewrite fold_merge_rel_present; [destruct g; reflexivity|].
  intros [a b] Hab; apply in_flat_map in Hab as [a' [Ha Hab]].
  apply in_map_iff in Hab as [b' [Hp Hb]]; injection Hp as <- <-; auto.
Qed.

Lemma apply_events_keeps_linked es : forall g u c,
  linked g u c -> linked (apply_events g es) u c.
Proof.
  induction es as [|e es IH]; simpl; intros g u c H; [exact H|].
  apply IH, linked_update, H.
Qed.

Lemma apply_events_links es : forall g e, In e es -> linked (apply_events g es) (fst e) (snd e).
Proof.
  induction es as [|e' es IH]; simpl; intros g e H; [destruct H|].
  destruct H as [<- | H]; [apply apply_events_keeps_linked, linked_after | apply IH, H].
Qed.

Lemma apply_events_fixed es : forall g,
  (forall e, In e es -> linked g (fst e) (snd e)) -> apply_events g es = g.
Proof.
  induction es as [|e es IH]; simpl; intros g H; [reflexivity|].
  rewrite linked_fixed by (apply H; left; reflexivity).
  apply IH; intros e' He'; apply H; right; exact He'.
Qed.

Lemma apply_events_twice (g : graph) (es : list (json * json)) :
  apply_events g (es ++ es) = apply_events g es.
Proof.
  unfold apply_events at 1; rewrite fold_left_app.
  apply apply_events_fixed; intros e He; apply apply_events_links, He.
Qed.


(** X15: the same through the loop: with a store that accepts every
    transaction, consuming a batch of messages whose keys pack and are
    accepted as property values, and then the same batch again, leaves the
    graph the batch alone leaves. *)
Theorem run_replay (deserialize : list Byte.byte -> option json)
  (ms : list (list Byte.byte)) (g : graph) (o : list attempt) :
  (forall m, In m ms -> exists u c, event_keys deserialize m = Some (u, c) /\
                                    prop_ok u && prop_ok c = true /\
                                    packable u && packable c = true) ->
  exists t t',
    run deserialize g (repeat Reachable (List.length (ms ++ ms)) ++ o) (ms ++ ms)
      = (apply_events g (events_of deserialize ms), o, t, Listening) /\
    run deserialize g (repeat Reachable (List.length ms) ++ o) ms
      = (apply_events g (events_of deserialize ms), o, t', Listening).
Proof.
  intros H.
  destruct (run_accepting deserialize (ms ++ ms) g o) as [t Ht].
  { intros m Hm; apply in_app_or in Hm as [Hm | Hm]; apply H, Hm. }
  destruct (run_accepting deserialize ms g o H) as [t' Ht'].
  exists t, t'; split; [|exact Ht'].
  rewrite Ht; unfold events_of; rewrite flat_map_app; fold (events_of deserialize ms).
  rewrite apply_events_twice; reflexivity.
Qed.

Lemma run_replay_witness :
  exists t t',
    run batch_loads empty_graph (repeat Reachable 4 ++ [])
        ([alice_payload; bob_payload] ++ [alice_payload; bob_payload])
      = (apply_events empty_graph (events_of batch_loads [alice_payload; bob_payload]),
         [], t, Listening) /\
    run batch_loads empty_graph (repeat Reachable 2 ++ []) [alice_payload; bob_payload]
      = (apply_events empty_graph (events_of batch_loads [alice_payload; bob_payload]),
         [], t', Listening).
Proof.
  apply (run_replay batch_loads [alice_payload; bob_payload] empty_graph []).
  intros m [<- | [<- | []]]; [exists (JStr "alice"), (JStr "books") | exists (JStr "bob"), (JStr "bikes")];
    repeat split; reflexivity.
Defined.
